(** * user_service: a shallow embedding of [user_service.h] / [user_service.cpp]

    The two source files are a catalogue of memory-safety and injection
    defects.  The embedding runs the functions on an abstract C++ machine
    that works at the level of objects (arrays, heap blocks, the
    [UserService] object) and records what the program does to the outside
    world in a [trace] ([printf] output, commands handed to [system],
    [new[]]/[delete[]]).  A block given back with [delete[]] stays in the
    heap, marked [Freed], so that a pointer that outlives its block can be
    recognised.

    The functions are read in two ways.

    - The strict reading ([authenticateUser], [processUserData], ...) ends a
      run with [Undefined u] at the first operation whose behaviour the
      language leaves undefined.  It answers whether a call has undefined
      behaviour and which operation is the first to have it; it says
      nothing about what the compiled code goes on to do.

    - The run-on reading ([RunOn.authenticateUser],
      [RunOn.processUserData]) follows the straight-line code past a store
      that overruns a local array, as the compiled code does: the bytes that
      do not fit are written behind the array, where a later read through
      the same array finds them.  The local arrays are kept in a [frame],
      part of the state, so that their bytes can be stated.  What the bytes
      behind an array do to the neighbouring objects depends on the layout
      of the frame and is not modelled; an operation that yields no value to
      go on with (a read through [nullptr] or past the source, the read of
      a local that was never assigned) still ends the run.  *)

From Stdlib Require Import ZArith String Ascii.
From stdpp Require Import base list gmap strings pretty.

(** ** Bytes, arrays and C strings *)

Definition NUL : ascii := "000"%char.

(** The two-character escape [\n] of the source's string literals. *)
Definition nl : string := String "010"%char EmptyString.

(** A [char] array.  A cell is [None] while it holds an indeterminate value
    (a local array before anything is stored into it, fresh [new char[n]]
    storage). *)
Abbreviation array := (list (option ascii)).

Definition uninit (n : nat) : array := replicate n None.

(** The array a string literal denotes: its characters and the terminator. *)
Definition c_str (s : string) : array :=
  (Some <$> list_ascii_of_string s) ++ [Some NUL].

(** Scan an array for its terminator, as [strlen], [strcpy], [%s] and
    [system] do.  [None] when the scan leaves the array or meets an
    indeterminate byte before it meets [NUL]. *)
Fixpoint read_cstr (a : array) : option string :=
  match a with
  | Some c :: a' =>
      if decide (c = NUL) then Some EmptyString else String c <$> read_cstr a'
  | _ => None
  end.

(** Pointers carry what they point to: the caller's array for a [char*]
    argument, the literal for a [const char*], a block address for storage
    obtained from [new]. *)
Inductive ptr (A : Type) : Type :=
| nullptr
| pointer (target : A).
Arguments nullptr {A}.
Arguments pointer {A} target.

(** ** Undefined behaviour, events, the machine state *)

Inductive ub : Type :=
| BufferOverflow (capacity written : nat)
    (* [written] bytes stored from the start of an array of [capacity] bytes *)
| InvalidRead        (* through [nullptr], past an array, or of an indeterminate byte *)
| NullDeref          (* member access through [nullptr] *)
| MissingReturn      (* control reaches the end of a value-returning function *)
| DanglingWrite      (* a store through a pointer whose block is not live *)
| UninitializedRead (var : string)   (* a local read before it was given a value *)
| InvalidDelete.     (* [delete[]] of a block that is not live *)

Inductive event : Type :=
| EvPrintf (out : string)
| EvSystem (command : string)
| EvNew (block : nat) (size : nat)
| EvStore (block : nat) (text : string)   (* [text] and its terminator, at offset 0 *)
| EvDelete (block : nat) (cells : array).   (* [cells]: the block as it was given back *)

Inductive hblock : Type :=
| Live (cells : array)
| Freed.

(** [class UserService]: [adminPassword] has a default member initialiser,
    [db] has none, so a default-constructed object holds an indeterminate
    [db] ([None]). *)
Record UserService : Type := mkUserService {
  adminPassword : ptr array;
  db : option (ptr nat)
}.

Definition UserService_default : UserService :=
  {| adminPassword := pointer (c_str "SuperSecret123!"); db := None |}.

Record world : Type := mkWorld {
  trace : list event;
  heap : gmap nat hblock;
  this : UserService
}.

Definition emit_event (e : event) (w : world) : world :=
  {| trace := trace w ++ [e]; heap := heap w; this := this w |}.

Definition set_heap (h : gmap nat hblock) (w : world) : world :=
  {| trace := trace w; heap := h; this := this w |}.

Definition world0 : world :=
  {| trace := []; heap := ∅; this := UserService_default |}.

Inductive outcome (A : Type) : Type :=
| Done (a : A)
| Undefined (u : ub).
Arguments Done {A} a.
Arguments Undefined {A} u.

(** ** The monad of runs *)

Definition M (A : Type) : Type := world → outcome A * world.

Definition ret {A} (a : A) : M A := λ w, (Done a, w).

Definition bind {A B} (k : A → M B) (m : M A) : M B :=
  λ w, match m w with
       | (Done a, w') => k a w'
       | (Undefined u, w') => (Undefined u, w')
       end.

#[global] Instance M_ret : MRet M := @ret.
#[global] Instance M_bind : MBind M := @bind.

Definition undefined {A} (u : ub) : M A := λ w, (Undefined u, w).

Definition emit (e : event) : M unit := λ w, (Done tt, emit_event e w).

Definition lift {A} (o : outcome A) : M A := λ w, (o, w).

(** The events a run adds to the trace it starts from. *)
Definition events {A} (m : M A) (w : world) : list event :=
  drop (length (trace w)) (trace (m w).2).

(** ** The library functions the source calls *)

(** Store [cells] from the start of [dst]. *)
Definition store (dst cells : array) : outcome array :=
  if decide (length cells ≤ length dst)
  then Done (cells ++ drop (length cells) dst)
  else Undefined (BufferOverflow (length dst) (length cells)).

Definition strcpy (dst : array) (src : ptr array) : M array :=
  match src with
  | nullptr => undefined InvalidRead
  | pointer a =>
      match read_cstr a with
      | None => undefined InvalidRead
      | Some s => lift (store dst (c_str s))
      end
  end.

(** The conversions of the format strings in the source. *)
Inductive fmt_item : Type :=
| Lit (s : string)
| FmtS (p : ptr array)      (* %s *)
| FmtD (i : Z).             (* %d *)

Definition render_item (f : fmt_item) : option string :=
  match f with
  | Lit s => Some s
  | FmtS nullptr => None
  | FmtS (pointer a) => read_cstr a
  | FmtD i => Some (pretty i)
  end.

Fixpoint render (fs : list fmt_item) : option string :=
  match fs with
  | [] => Some EmptyString
  | f :: fs' =>
      match render_item f, render fs' with
      | Some s, Some r => Some (s +:+ r)
      | _, _ => None
      end
  end.

Definition printf (fs : list fmt_item) : M unit :=
  match render fs with
  | Some s => emit (EvPrintf s)
  | None => undefined InvalidRead
  end.

(** [sprintf] into a local array. *)
Definition sprintf (dst : array) (fs : list fmt_item) : M array :=
  match render fs with
  | Some s => lift (store dst (c_str s))
  | None => undefined InvalidRead
  end.

Definition system (command : array) : M unit :=
  match read_cstr command with
  | Some s => emit (EvSystem s)
  | None => undefined InvalidRead
  end.

(** [strcmp] walks both arrays together and stops at the first difference
    or at a common terminator. *)
Fixpoint strcmp_cells (a b : array) : option Z :=
  match a, b with
  | Some x :: a', Some y :: b' =>
      if decide (x = y)
      then if decide (x = NUL) then Some 0%Z else strcmp_cells a' b'
      else Some (Z.of_nat (nat_of_ascii x) - Z.of_nat (nat_of_ascii y))%Z
  | _, _ => None
  end.

Definition strcmp (a b : ptr array) : M Z :=
  match a, b with
  | pointer a, pointer b =>
      match strcmp_cells a b with
      | Some r => ret r
      | None => undefined InvalidRead
      end
  | _, _ => undefined InvalidRead
  end.

(** [int] and [size_t] on the usual LP64 targets. *)
Definition int_range (z : Z) : Prop := (- 2 ^ 31 ≤ z < 2 ^ 31)%Z.

Definition to_size_t (z : Z) : Z := (z mod 2 ^ 64)%Z.

(** [memcpy(dst, src, n)]: [n] cells of [src], indeterminate ones included,
    stored from the start of [dst]. *)
Definition memcpy (dst : array) (src : ptr array) (n : Z) : M array :=
  match src with
  | nullptr => undefined InvalidRead
  | pointer a =>
      if decide (n ≤ Z.of_nat (length a))%Z
      then lift (store dst (take (Z.to_nat n) a))
      else undefined InvalidRead
  end.

(** [new char[n]]: a fresh block of [n] indeterminate bytes. *)
Definition new_char_array (n : nat) : M (ptr nat) :=
  λ w, let b := fresh (dom (heap w)) in
       (Done (pointer b),
        emit_event (EvNew b n) (set_heap (<[b := Live (uninit n)]> (heap w)) w)).

(** [sprintf] through a pointer into the heap. *)
Definition sprintf_heap (p : ptr nat) (fs : list fmt_item) : M unit :=
  match p, render fs with
  | pointer b, Some s =>
      λ w, match heap w !! b with
           | Some (Live cells) =>
               match store cells (c_str s) with
               | Done cells' =>
                   (Done tt,
                    emit_event (EvStore b s)
                      (set_heap (<[b := Live cells']> (heap w)) w))
               | Undefined u => (Undefined u, w)
               end
           | _ => (Undefined DanglingWrite, w)
           end
  | _, _ => undefined InvalidRead
  end.

(** [delete[] p]. *)
Definition delete_array (p : ptr nat) : M unit :=
  match p with
  | nullptr => ret tt
  | pointer b =>
      λ w, match heap w !! b with
           | Some (Live cells) =>
               (Done tt,
                emit_event (EvDelete b cells) (set_heap (<[b := Freed]> (heap w)) w))
           | _ => (Undefined InvalidDelete, w)
           end
  end.

(** The [std::string] constructor that takes a C string. *)
Definition std_string (p : ptr array) : M string :=
  match p with
  | nullptr => undefined InvalidRead
  | pointer a =>
      match read_cstr a with
      | Some s => ret s
      | None => undefined InvalidRead
      end
  end.

(** Reading an [int] local.  [None] is a local that was declared without an
    initialiser and never assigned: it has no value to read. *)
Definition read_local (name : string) (v : option Z) : M Z :=
  match v with
  | Some z => ret z
  | None => undefined (UninitializedRead name)
  end.

Definition is_nullptr {A} (p : ptr A) : bool :=
  match p with nullptr => true | pointer _ => false end.

(** [p->f]. *)
Definition arrow {A B} (p : ptr A) (f : A → B) : M B :=
  match p with
  | nullptr => undefined NullDeref
  | pointer a => mret (f a)
  end.

Definition get_this : M UserService := λ w, (Done (this w), w).

(** * The program *)

(** ** user_service.h *)

Definition buildQuery (userInput : string) : string :=
  "SELECT * FROM users WHERE id = " +:+ userInput.

(** ** user_service.cpp *)

Definition authenticateUser (username password : ptr array) : M unit :=
  let buffer := uninit 32 in
  buffer ← strcpy buffer username;
  let command := uninit 256 in
  command ← sprintf command [Lit "auth_check "; FmtS username];
  system command;;
  r ← strcmp password (pointer (c_str "admin123"));
  if decide (r = 0%Z)
  then printf [Lit ("Admin access granted" +:+ nl)]
  else mret tt.

Definition getUserToken (userId : Z) : M (ptr nat) :=
  token ← new_char_array 64;
  sprintf_heap token [Lit "token_"; FmtD userId];;
  delete_array token;;
  mret token.

Definition getSecretKey : M string :=
  self ← get_this;
  if negb (is_nullptr (adminPassword self))
  then std_string (adminPassword self)
  else undefined MissingReturn.

Definition processUserData (data : ptr array) (length : Z) : M unit :=
  let output := uninit 100 in
  output ← memcpy output data (to_size_t length);
  let status : option Z := None in
  status ← read_local "status" status;
  if decide (status = 0%Z)
  then printf [Lit ("Success" +:+ nl)]
  else mret tt.

(** [ServiceConfig] is declared nowhere in the repository; the function only
    needs a type with an [int] member [port]. *)
Section ConnectToService.
Variable ServiceConfig : Type.
Variable port : ServiceConfig → Z.

Definition connectToService (config : ptr ServiceConfig) : M unit :=
  (if is_nullptr config
   then printf [Lit ("Config is null" +:+ nl)]
   else mret tt);;
  p ← arrow config port;
  printf [Lit "Port: "; FmtD p; Lit nl].
End ConnectToService.

(** ** Calling the member functions of one object in sequence *)

Inductive method : Type :=
| AuthenticateUser (username password : ptr array)
| GetUserToken (userId : Z)
| GetSecretKey.

Definition call (m : method) : M unit :=
  match m with
  | AuthenticateUser u p => authenticateUser u p
  | GetUserToken i => getUserToken i;; mret tt
  | GetSecretKey => getSecretKey;; mret tt
  end.

Fixpoint calls (ms : list method) : M unit :=
  match ms with
  | [] => mret tt
  | m :: ms' => call m;; calls ms'
  end.

(** * The run-on reading *)

Module RunOn.

(** A local array: the size it was declared with and the bytes from its
    address on.  [memory] is longer than [declared] once a store has
    overrun the array. *)
Record local_array : Type := mkLocal {
  declared : nat;
  memory : array
}.

Record state : Type := mkState {
  outside : world;
  frame : gmap string local_array
}.

(** Runs over a state with a frame.  [Done a] says that control reached the
    end of the body with [a]; whether an array was overrun on the way is
    read off the frame ([overrun] below), not off the outcome. *)
Definition R (A : Type) : Type := state → outcome A * state.

Definition ret {A} (a : A) : R A := λ s, (Done a, s).

Definition bind {A B} (k : A → R B) (m : R A) : R B :=
  λ s, match m s with
       | (Done a, s') => k a s'
       | (Undefined u, s') => (Undefined u, s')
       end.

#[global] Instance R_ret : MRet R := @ret.
#[global] Instance R_bind : MBind R := @bind.

Definition undefined {A} (u : ub) : R A := λ s, (Undefined u, s).

(** An operation that does not touch the frame. *)
Definition out {A} (m : M A) : R A :=
  λ s, ((m (outside s)).1, mkState (m (outside s)).2 (frame s)).

(** The declaration [char name[n];]. *)
Definition declare (name : string) (n : nat) : R unit :=
  λ s, (Done tt, mkState (outside s) (<[name := mkLocal n (uninit n)]> (frame s))).

(** Store [cells] from the start of the local array [name], however many
    they are. *)
Definition store_local (name : string) (cells : array) : R unit :=
  λ s, match frame s !! name with
       | Some a =>
           (Done tt,
            mkState (outside s)
              (<[name := mkLocal (declared a)
                           (cells ++ drop (length cells) (memory a))]> (frame s)))
       | None => (Undefined DanglingWrite, s)
       end.

Definition strcpy (dst : string) (src : ptr array) : R unit :=
  match src with
  | nullptr => undefined InvalidRead
  | pointer a =>
      match read_cstr a with
      | None => undefined InvalidRead
      | Some s => store_local dst (c_str s)
      end
  end.

Definition sprintf (dst : string) (fs : list fmt_item) : R unit :=
  match render fs with
  | Some s => store_local dst (c_str s)
  | None => undefined InvalidRead
  end.

Definition memcpy (dst : string) (src : ptr array) (n : Z) : R unit :=
  match src with
  | nullptr => undefined InvalidRead
  | pointer a =>
      if decide (n ≤ Z.of_nat (length a))%Z
      then store_local dst (take (Z.to_nat n) a)
      else undefined InvalidRead
  end.

(** [system(name)]: the command is the string found at the array's address. *)
Definition system (name : string) : R unit :=
  λ s, match frame s !! name with
       | Some a =>
           match read_cstr (memory a) with
           | Some c => out (emit (EvSystem c)) s
           | None => (Undefined InvalidRead, s)
           end
       | None => (Undefined InvalidRead, s)
       end.

Definition authenticateUser (username password : ptr array) : R unit :=
  declare "buffer" 32;;
  strcpy "buffer" username;;
  declare "command" 256;;
  sprintf "command" [Lit "auth_check "; FmtS username];;
  system "command";;
  r ← out (strcmp password (pointer (c_str "admin123")));
  if decide (r = 0%Z)
  then out (printf [Lit ("Admin access granted" +:+ nl)])
  else mret tt.

Definition processUserData (data : ptr array) (length : Z) : R unit :=
  declare "output" 100;;
  memcpy "output" data (to_size_t length);;
  let status : option Z := None in
  status ← out (read_local "status" status);
  if decide (status = 0%Z)
  then out (printf [Lit ("Success" +:+ nl)])
  else mret tt.

(** A call from a state of the outside world, with an empty frame. *)
Definition run {A} (m : R A) (w : world) : outcome A * state :=
  m (mkState w ∅).

(** The events a call adds to the trace it starts from. *)
Definition events {A} (m : R A) (w : world) : list event :=
  drop (length (trace w)) (trace (outside (run m w).2)).

(** The local array [name] holds bytes behind its declared end. *)
Definition overrun (s : state) (name : string) : Prop :=
  ∃ a, frame s !! name = Some a ∧ declared a < length (memory a).

End RunOn.

(** * Predicates and observations used in the statements *)

(** A string that can be the contents of a C string. *)
Definition NoNul (s : string) : Prop := NUL ∉ list_ascii_of_string s.

(** The commands a list of events hands to [system], in order. *)
Definition system_calls (es : list event) : list string :=
  omap (λ e, match e with EvSystem c => Some c | _ => None end) es.

Definition admin_access_granted (username password : ptr array) (w : world) : Prop :=
  EvPrintf ("Admin access granted" +:+ nl)
    ∈ RunOn.events (RunOn.authenticateUser username password) w.

(** The text [getUserToken] formats, and the 64-byte block that holds it. *)
Definition token_text (userId : Z) : string := "token_" +:+ pretty userId.

Definition token_block (userId : Z) : array :=
  c_str (token_text userId) ++ uninit (64 - S (String.length (token_text userId))).

(** The frame of [authenticateUser] once both copies have been made. *)
Definition auth_frame (u : string) : gmap string RunOn.local_array :=
  <["command" := RunOn.mkLocal 256
       (c_str ("auth_check " +:+ u) ++ uninit (256 - S (11 + String.length u)))]>
    (<["buffer" := RunOn.mkLocal 32 (c_str u ++ uninit (32 - S (String.length u)))]> ∅).

(** The frame of [processUserData] once the copy has been made. *)
Definition data_frame (data : array) (n : Z) : gmap string RunOn.local_array :=
  <["output" := RunOn.mkLocal 100
       (take (Z.to_nat n) data ++ uninit (100 - Z.to_nat n))]> ∅.

(** The statements that follow [system(command)]. *)
Definition admin_check (password : ptr array) : M unit :=
  r ← strcmp password (pointer (c_str "admin123"));
  if decide (r = 0%Z)
  then printf [Lit ("Admin access granted" +:+ nl)]
  else mret tt.

(** A run leaves the members of the object as they were. *)
Definition preserves_this {A} (m : M A) : Prop :=
  ∀ w, this (m w).2 = this w.

(** Two heaps with the same live blocks, holding the same bytes. *)
Definition same_live (h h' : gmap nat hblock) : Prop :=
  ∀ (b : nat) (cells : array),
    h' !! b = Some (Live cells) ↔ h !! b = Some (Live cells).

(** A run that neither leaks a block nor touches a live one. *)
Definition keeps_live {A} (m : M A) : Prop :=
  ∀ w, same_live (heap w) (heap (m w).2).

(** An [int] argument lies in the range of [int]. *)
Definition int_args (m : method) : Prop :=
  match m with
  | GetUserToken userId => int_range userId
  | _ => True
  end.

(** [w] with [es] added to its trace and nothing else changed. *)
Definition extend_trace (es : list event) (w : world) : world :=
  {| trace := trace w ++ es; heap := heap w; this := this w |}.

(** * Facts about strings and arrays *)

Lemma append_String (c : ascii) (s t : string) :
  String c s +:+ t = String c (s +:+ t).
Proof. reflexivity. Qed.

Lemma append_empty_r (s : string) : s +:+ "" = s.
Proof. induction s as [|c s IH]; [done | by rewrite append_String, IH]. Qed.

Lemma list_ascii_append (s t : string) :
  list_ascii_of_string (s +:+ t) = list_ascii_of_string s ++ list_ascii_of_string t.
Proof.
  induction s as [|c s IH]; [done | rewrite append_String; simpl; by rewrite IH].
Qed.

Lemma length_list_ascii (s : string) :
  length (list_ascii_of_string s) = String.length s.
Proof. induction s as [|c s IH]; simpl; [done | by rewrite IH]. Qed.

Lemma length_append (s t : string) :
  String.length (s +:+ t) = String.length s + String.length t.
Proof. by rewrite <- !length_list_ascii, list_ascii_append, length_app. Qed.

Lemma length_c_str (s : string) : length (c_str s) = S (String.length s).
Proof.
  unfold c_str. rewrite length_app, length_fmap, length_list_ascii. simpl. lia.
Qed.

Lemma NoNul_append (s t : string) : NoNul s → NoNul t → NoNul (s +:+ t).
Proof.
  unfold NoNul. rewrite list_ascii_append, elem_of_app. tauto.
Qed.

Lemma NoNul_String (c : ascii) (s : string) :
  NoNul (String c s) ↔ c ≠ NUL ∧ NoNul s.
Proof.
  unfold NoNul. change (list_ascii_of_string (String c s))
    with (c :: list_ascii_of_string s). rewrite elem_of_cons. split.
  - intros H. split; [intros -> | ]; tauto.
  - intros [Hc Hs] [<-|?]; tauto.
Qed.

(** Literals are checked by evaluation. *)
Ltac solve_NoNul :=
  unfold NoNul;
  lazymatch goal with |- ?P => apply (bool_decide_unpack P) end;
  vm_compute; exact I.

(** A terminated string at the start of an array is what a scan reads. *)
Lemma read_cstr_c_str (s : string) (rest : array) :
  NoNul s → read_cstr (c_str s ++ rest) = Some s.
Proof.
  induction s as [|c s IH]; intros Hs.
  - done.
  - apply NoNul_String in Hs as [Hc Hs].
    change (c_str (String c s)) with (Some c :: c_str s). simpl.
    rewrite decide_False by done. by rewrite IH.
Qed.

(** Conversely a successful scan found such a string. *)
Lemma read_cstr_inv (a : array) (s : string) :
  read_cstr a = Some s → NoNul s ∧ ∃ rest, a = c_str s ++ rest.
Proof.
  revert s. induction a as [|[c|] a IH]; intros s; simpl; try done.
  case_decide as Hc.
  - intros [= <-]. split; [unfold NoNul; simpl; apply not_elem_of_nil |].
    exists a. by rewrite Hc.
  - destruct (read_cstr a) as [s'|] eqn:Hs'; simpl; [|done].
    intros [= <-]. destruct (IH s' eq_refl) as [Hn [rest ->]].
    split; [by apply NoNul_String | by exists rest].
Qed.

Lemma nat_of_ascii_diff (x y : ascii) :
  x ≠ y → (Z.of_nat (nat_of_ascii x) - Z.of_nat (nat_of_ascii y))%Z ≠ 0%Z.
Proof.
  intros Hxy Hd. apply Hxy.
  rewrite <- (ascii_nat_embedding x), <- (ascii_nat_embedding y).
  f_equal. lia.
Qed.

(** [strcmp] against a literal returns 0 exactly on that literal. *)
Lemma strcmp_cells_literal (t : string) :
  NoNul t → ∀ (a : array) (s : string), read_cstr a = Some s →
  ∃ r, strcmp_cells a (c_str t) = Some r ∧ (r = 0%Z ↔ s = t).
Proof.
  induction t as [|y t IH]; intros Ht a s Ha.
  - destruct a as [|[x|] a]; simpl in Ha; try done.
    change (c_str "") with [Some NUL]. simpl. revert Ha.
    destruct (decide (x = NUL)) as [->|Hx]; intros Ha.
    + injection Ha as <-. by exists 0%Z.
    + destruct (read_cstr a) as [s'|]; simpl in Ha; [|done].
      injection Ha as <-. eexists; split; [done|].
      split; [|done]. intros Hr. by apply nat_of_ascii_diff in Hr.
  - apply NoNul_String in Ht as [Hy Ht].
    destruct a as [|[x|] a]; simpl in Ha; try done.
    change (c_str (String y t)) with (Some y :: c_str t). simpl.
    destruct (decide (x = y)) as [->|Hxy].
    + rewrite !decide_False in * by done.
      destruct (read_cstr a) as [s'|] eqn:Hs'; simpl in Ha; [|done].
      injection Ha as <-. destruct (IH Ht a s' Hs') as [r [Hr Hiff]].
      exists r. split; [done|]. rewrite Hiff. split; [by intros -> | by intros [= ->]].
    + eexists; split; [done|]. split.
      * intros Hr. by apply nat_of_ascii_diff in Hr.
      * intros ->. revert Ha. case_decide; [done|].
        destruct (read_cstr a); simpl; [|done]. by intros [= ->].
Qed.

Lemma store_fits (dst cells : array) :
  length cells ≤ length dst →
  store dst cells = Done (cells ++ drop (length cells) dst).
Proof. intros H. unfold store. by rewrite decide_True. Qed.

Lemma store_overflow (dst cells : array) :
  length dst < length cells →
  store dst cells = Undefined (BufferOverflow (length dst) (length cells)).
Proof. intros H. unfold store. rewrite decide_False; [done | lia]. Qed.

(** * Facts about runs *)

Lemma bind_Done {A B} (m : M A) (k : A → M B) (w w' : world) (a : A) :
  m w = (Done a, w') → (m ≫= k) w = k a w'.
Proof. intros H. unfold mbind, M_bind, bind. by rewrite H. Qed.

Lemma bind_Undefined {A B} (m : M A) (k : A → M B) (w w' : world) (u : ub) :
  m w = (Undefined u, w') → (m ≫= k) w = (Undefined u, w').
Proof. intros H. unfold mbind, M_bind, bind. by rewrite H. Qed.

Lemma events_extend {A} (m : M A) (w : world) (r : outcome A) (w' : world)
    (es : list event) :
  m w = (r, w') → trace w' = trace w ++ es → events m w = es.
Proof.
  intros Hm Ht. unfold events. rewrite Hm. simpl. rewrite Ht.
  by rewrite drop_app_length.
Qed.

(** * The functions on sample inputs *)

Example authenticateUser_bob :
  let r := authenticateUser (pointer (c_str "bob")) (pointer (c_str "admin123")) world0 in
  r.1 = Done tt
  ∧ trace r.2 = [EvSystem "auth_check bob"; EvPrintf ("Admin access granted" +:+ nl)].
Proof. by vm_compute. Qed.

Example authenticateUser_wrong_password :
  let r := authenticateUser (pointer (c_str "bob")) (pointer (c_str "admin1234")) world0 in
  r.1 = Done tt ∧ trace r.2 = [EvSystem "auth_check bob"].
Proof. by vm_compute. Qed.

Example authenticateUser_31_characters :
  let r := authenticateUser (pointer (c_str "0123456789abcdef0123456789abcde"))
             (pointer (c_str "x")) world0 in
  r.1 = Done tt
  ∧ trace r.2 = [EvSystem "auth_check 0123456789abcdef0123456789abcde"].
Proof. by vm_compute. Qed.

Example getUserToken_min_int :
  let r := getUserToken (-2147483648) world0 in
  r.1 = Done (pointer 0)
  ∧ trace r.2 = [EvNew 0 64; EvStore 0 "token_-2147483648";
                 EvDelete 0 (c_str "token_-2147483648" ++ uninit 46)]
  ∧ heap r.2 !! 0 = Some Freed.
Proof. by vm_compute. Qed.

Example processUserData_100_bytes :
  (processUserData (pointer (replicate 100 (Some "a"%char))) 100 world0).1
  = Undefined (UninitializedRead "status").
Proof. by vm_compute. Qed.

Example processUserData_101_bytes :
  (processUserData (pointer (replicate 101 (Some "a"%char))) 101 world0).1
  = Undefined (BufferOverflow 100 101).
Proof. by vm_compute. Qed.

Example run_on_authenticateUser_40_characters :
  RunOn.events
    (RunOn.authenticateUser
       (pointer (c_str "0123456789abcdef0123456789abcdef01234567"))
       (pointer (c_str "admin123"))) world0
  = [EvSystem "auth_check 0123456789abcdef0123456789abcdef01234567";
     EvPrintf ("Admin access granted" +:+ nl)].
Proof. by vm_compute. Qed.

Example run_on_processUserData_101_bytes :
  let r := RunOn.run (RunOn.processUserData
                        (pointer (replicate 101 (Some "a"%char))) 101) world0 in
  r.1 = Undefined (UninitializedRead "status")
  ∧ RunOn.frame r.2 !! "output"
    = Some (RunOn.mkLocal 100 (replicate 101 (Some "a"%char))).
Proof. by vm_compute. Qed.

Example connectToService_8080 :
  trace (connectToService Z id (pointer 8080%Z) world0).2
  = [EvPrintf ("Port: 8080" +:+ nl)].
Proof. by vm_compute. Qed.

Example buildQuery_injection :
  buildQuery "1 OR 1=1; DROP TABLE users"
  = "SELECT * FROM users WHERE id = 1 OR 1=1; DROP TABLE users".
Proof. reflexivity. Qed.

(** * [UserService::authenticateUser] *)

Lemma system_calls_cons (c : string) (es : list event) :
  system_calls (EvSystem c :: es) = c :: system_calls es.
Proof. reflexivity. Qed.

(** A username of at most 31 characters passes both copies; the run reaches
    the password check with one more event in the trace. *)
Lemma authenticateUser_short (username : array) (u : string)
    (password : ptr array) (w : world) :
  read_cstr username = Some u → String.length u < 32 →
  authenticateUser (pointer username) password w
  = admin_check password (emit_event (EvSystem ("auth_check " +:+ u)) w).
Proof.
  intros Hu Hlen. destruct (read_cstr_inv _ _ Hu) as [Hnn _].
  unfold authenticateUser.
  erewrite bind_Done; cycle 1.
  { unfold strcpy, lift. rewrite Hu, store_fits; [done|].
    rewrite length_c_str. unfold uninit. rewrite length_replicate. lia. }
  erewrite bind_Done; cycle 1.
  { unfold sprintf, lift. simpl. rewrite Hu, append_empty_r, store_fits; [done|].
    rewrite length_c_str, length_append. unfold uninit.
    rewrite length_replicate. simpl. lia. }
  erewrite bind_Done; cycle 1.
  { unfold system. rewrite read_cstr_c_str; [done|].
    apply NoNul_append; [solve_NoNul | done]. }
  done.
Qed.

Lemma admin_check_valid (password : array) (p : string) (w : world) :
  read_cstr password = Some p →
  admin_check (pointer password) w
  = (Done tt,
     if decide (p = "admin123")
     then emit_event (EvPrintf ("Admin access granted" +:+ nl)) w
     else w).
Proof.
  intros Hp. unfold admin_check.
  destruct (strcmp_cells_literal "admin123") with (a := password) (s := p)
    as [r [Hr Hiff]]; [|done|].
  { solve_NoNul. }
  erewrite bind_Done; cycle 1.
  { unfold strcmp. by rewrite Hr. }
  destruct (decide (r = 0%Z)) as [Hz|Hz], (decide (p = "admin123")) as [Hq|Hq];
    try done; tauto.
Qed.

(** Whatever the password pointer is, the check adds no [system] call. *)
Lemma admin_check_trace (password : ptr array) (w : world) :
  ∃ es, trace (admin_check password w).2 = trace w ++ es ∧ system_calls es = [].
Proof.
  unfold admin_check, mbind, M_bind, bind, strcmp.
  destruct password as [|a]; [by exists []; rewrite app_nil_r|].
  destruct (strcmp_cells a _) as [r|]; [|by exists []; rewrite app_nil_r].
  simpl. case_decide; [|by exists []; rewrite app_nil_r].
  by eexists [_].
Qed.

(** C1: a username whose terminated string has 32 characters or more makes
    [strcpy(buffer, username)] store past the end of the 32-byte [buffer]:
    the copy needs one byte more than the string is long, and no check
    precedes it.  The run is undefined from there on. *)
Theorem authenticateUser_buffer_overflow (username : array) (u : string)
    (password : ptr array) (w : world) :
  read_cstr username = Some u → 32 ≤ String.length u →
  authenticateUser (pointer username) password w
  = (Undefined (BufferOverflow 32 (S (String.length u))), w).
Proof.
  intros Hu Hlen. unfold authenticateUser.
  apply bind_Undefined. unfold strcpy, lift. rewrite Hu, store_overflow.
  - rewrite length_c_str. by unfold uninit; rewrite length_replicate.
  - rewrite length_c_str. unfold uninit. rewrite length_replicate. lia.
Qed.

Lemma authenticateUser_buffer_overflow_witness :
  authenticateUser (pointer (c_str "0123456789abcdef0123456789abcdef"))
    (pointer (c_str "secret")) world0
  = (Undefined (BufferOverflow 32 33), world0).
Proof.
  apply (authenticateUser_buffer_overflow
           (c_str "0123456789abcdef0123456789abcdef")
           "0123456789abcdef0123456789abcdef" (pointer (c_str "secret")) world0).
  - reflexivity.
  - simpl. lia.
Defined.

(** * [UserService::getUserToken] *)

(** [%d] prints at most [k] digits for a number below [10 ^ k]. *)
Lemma pretty_N_go_length (k : nat) :
  ∀ (x : N) (s : string), (x < 10 ^ N.of_nat k)%N →
  String.length (pretty_N_go x s) ≤ String.length s + k.
Proof.
  induction k as [|k IH]; intros x s Hx.
  - assert (x = 0%N) as -> by (simpl in Hx; lia).
    rewrite pretty_N_go_0. lia.
  - destruct (decide (x = 0%N)) as [->|Hnz].
    + rewrite pretty_N_go_0. lia.
    + rewrite pretty_N_go_step by lia.
      etransitivity; [apply IH|simpl; lia].
      rewrite Nat2N.inj_succ, N.pow_succ_r' in Hx.
      apply N.Div0.div_lt_upper_bound. lia.
Qed.

Lemma pretty_int_length (i : Z) :
  int_range i → String.length (pretty i) ≤ 11.
Proof.
  unfold int_range. intros Hi.
  assert (∀ p : positive, (Z.pos p ≤ 2 ^ 31)%Z →
            String.length (pretty p) ≤ 10) as Hpos.
  { intros p Hp. unfold pretty, pretty_positive, pretty, pretty_N.
    rewrite decide_False by done.
    apply (pretty_N_go_length 10 (N.pos p) ""). 
    change (10 ^ N.of_nat 10)%N with 10000000000%N. lia. }
  destruct i as [|p|p]; unfold pretty, pretty_Z.
  - simpl. lia.
  - specialize (Hpos p). lia.
  - rewrite length_append. specialize (Hpos p). simpl. lia.
Qed.

Lemma sprintf_heap_fits (b : nat) (fs : list fmt_item) (s : string)
    (cells : array) (w : world) :
  render fs = Some s → heap w !! b = Some (Live cells) →
  S (String.length s) ≤ length cells →
  sprintf_heap (pointer b) fs w
  = (Done tt,
     emit_event (EvStore b s)
       (set_heap (<[b := Live (c_str s ++ drop (S (String.length s)) cells)]> (heap w)) w)).
Proof.
  intros Hs Hb Hlen. unfold sprintf_heap. rewrite Hs, Hb.
  rewrite store_fits by (rewrite length_c_str; lia).
  by rewrite length_c_str.
Qed.

Lemma delete_array_live (b : nat) (cells : array) (w : world) :
  heap w !! b = Some (Live cells) →
  delete_array (pointer b) w
  = (Done tt, emit_event (EvDelete b cells) (set_heap (<[b := Freed]> (heap w)) w)).
Proof. intros Hb. unfold delete_array. by rewrite Hb. Qed.

Lemma render_token (userId : Z) :
  render [Lit "token_"; FmtD userId] = Some (token_text userId).
Proof.
  unfold token_text. cbn [render render_item]. by rewrite append_empty_r.
Qed.

(** The whole run, for an [int] argument. *)
Lemma getUserToken_run (userId : Z) (w : world) :
  int_range userId →
  getUserToken userId w
  = (Done (pointer (fresh (dom (heap w)))),
     set_heap (<[fresh (dom (heap w)) := Freed]> (heap w))
       (extend_trace [EvNew (fresh (dom (heap w))) 64;
                      EvStore (fresh (dom (heap w))) (token_text userId);
                      EvDelete (fresh (dom (heap w))) (token_block userId)] w)).
Proof.
  intros Hi. pose proof (pretty_int_length userId Hi) as Hlen.
  set (b := fresh (dom (heap w))).
  assert (S (String.length (token_text userId)) ≤ 64) as Hfit.
  { unfold token_text. rewrite length_append. simpl. lia. }
  unfold getUserToken.
  erewrite bind_Done; [|reflexivity].
  erewrite bind_Done; cycle 1.
  { apply sprintf_heap_fits with (cells := uninit 64).
    - apply render_token.
    - apply lookup_insert_eq.
    - unfold uninit. by rewrite length_replicate. }
  erewrite bind_Done; cycle 1.
  { apply delete_array_live. apply lookup_insert_eq. }
  unfold mret, M_ret, ret, emit_event, set_heap, extend_trace.
  cbn [trace heap this]. fold b.
  rewrite !insert_insert_eq, <- !app_assoc.
  unfold token_block, uninit. by rewrite drop_replicate.
Qed.

(** C3: for every [int] userId the function takes a fresh 64-byte block
    from the heap, stores "token_<userId>" (and its terminator) at its
    start, gives the block back with [delete[]], and returns the pointer to
    that block, which is freed by then.  The block handed to [delete[]]
    holds the text and its terminator in its first bytes, the rest of the
    64 bytes being as [new] left them. *)
Theorem getUserToken_use_after_free (userId : Z) (w : world) :
  int_range userId →
  ∃ (b : nat) (w' : world),
    getUserToken userId w = (Done (pointer b), w')
    ∧ heap w !! b = None
    ∧ events (getUserToken userId) w
      = [EvNew b 64; EvStore b ("token_" +:+ pretty userId);
         EvDelete b
           (c_str ("token_" +:+ pretty userId)
            ++ uninit (64 - S (String.length ("token_" +:+ pretty userId))))]
    ∧ heap w' !! b = Some Freed.
Proof.
  intros Hi. pose proof (getUserToken_run userId w Hi) as Hrun.
  eexists _, _. split; [exact Hrun|]. split.
  { apply not_elem_of_dom, is_fresh. }
  split.
  - eapply events_extend; [exact Hrun | reflexivity].
  - simpl. apply lookup_insert_eq.
Qed.

Lemma getUserToken_use_after_free_witness :
  ∃ (b : nat) (w' : world),
    getUserToken 42 world0 = (Done (pointer b), w')
    ∧ heap world0 !! b = None
    ∧ events (getUserToken 42) world0
      = [EvNew b 64; EvStore b ("token_" +:+ pretty 42%Z);
         EvDelete b
           (c_str ("token_" +:+ pretty 42%Z)
            ++ uninit (64 - S (String.length ("token_" +:+ pretty 42%Z))))]
    ∧ heap w' !! b = Some Freed.
Proof.
  apply (getUserToken_use_after_free 42 world0).
  unfold int_range. lia.
Defined.

(** * [UserService::getSecretKey] *)

Lemma getSecretKey_lookup (w : world) :
  (adminPassword (this w) ≠ nullptr →
     getSecretKey w = std_string (adminPassword (this w)) w)
  ∧ (∀ (a : array) (s : string),
       adminPassword (this w) = pointer a → read_cstr a = Some s →
       getSecretKey w = (Done s, w))
  ∧ (adminPassword (this w) = nullptr →
       getSecretKey w = (Undefined MissingReturn, w)).
Proof.
  unfold getSecretKey, mbind, M_bind, bind, get_this. simpl.
  repeat split.
  - intros Hnn. by destruct (adminPassword (this w)).
  - intros a s -> Hs. simpl. by rewrite Hs.
  - by intros ->.
Qed.

(** C6: when [adminPassword] is not [nullptr] the function returns
    [std::string(adminPassword)], that is the string the pointer leads to;
    when it is [nullptr] control reaches the end of the function, which has
    no [return] there. *)
Theorem getSecretKey_paths (w : world) :
  (adminPassword (this w) ≠ nullptr →
     getSecretKey w = std_string (adminPassword (this w)) w)
  ∧ (∀ (a : array) (s : string),
       adminPassword (this w) = pointer a → read_cstr a = Some s →
       getSecretKey w = (Done s, w))
  ∧ (adminPassword (this w) = nullptr →
       getSecretKey w = (Undefined MissingReturn, w)).
Proof. exact (getSecretKey_lookup w). Qed.

Lemma getSecretKey_paths_witness :
  getSecretKey world0 = (Done "SuperSecret123!", world0)
  ∧ getSecretKey
      (mkWorld [] ∅ (mkUserService nullptr None))
    = (Undefined MissingReturn, mkWorld [] ∅ (mkUserService nullptr None)).
Proof.
  split.
  - apply (proj1 (proj2 (getSecretKey_paths world0))
             (c_str "SuperSecret123!") "SuperSecret123!"); reflexivity.
  - apply (proj2 (proj2 (getSecretKey_paths
                           (mkWorld [] ∅ (mkUserService nullptr None))))).
    reflexivity.
Defined.

(** * [processUserData] *)

Lemma to_size_t_small (n : Z) : (0 ≤ n < 2 ^ 31)%Z → to_size_t n = n.
Proof. intros Hn. unfold to_size_t. apply Z.mod_small. lia. Qed.

Lemma to_size_t_negative (n : Z) :
  (- 2 ^ 31 ≤ n < 0)%Z → to_size_t n = (n + 2 ^ 64)%Z.
Proof.
  intros Hn. unfold to_size_t.
  rewrite <- (Z_mod_plus_full n 1 (2 ^ 64)). apply Z.mod_small. lia.
Qed.

Lemma length_take_Z (data : array) (n : Z) :
  (0 ≤ n ≤ Z.of_nat (length data))%Z → length (take (Z.to_nat n) data) = Z.to_nat n.
Proof. intros Hn. rewrite length_take. lia. Qed.

(** In the strict reading a call whose copy fits is undefined at the read
    of [status]. *)
Lemma processUserData_fits (data : array) (n : Z) (w : world) :
  (0 ≤ n ≤ 100)%Z → (n ≤ Z.of_nat (length data))%Z →
  processUserData (pointer data) n w = (Undefined (UninitializedRead "status"), w).
Proof.
  intros Hn Hd. unfold processUserData.
  erewrite bind_Done; cycle 1.
  { rewrite to_size_t_small by lia.
    unfold memcpy, lift. rewrite decide_True by done.
    rewrite store_fits; [reflexivity|].
    rewrite length_take_Z by lia. unfold uninit. rewrite length_replicate. lia. }
  by apply bind_Undefined.
Qed.

(** In the strict reading a call with [length] above 100 is undefined at
    [memcpy]. *)
Lemma processUserData_overflows (data : array) (n : Z) (w : world) :
  int_range n → (100 < n)%Z → (n ≤ Z.of_nat (length data))%Z →
  processUserData (pointer data) n w
  = (Undefined (BufferOverflow 100 (Z.to_nat n)), w).
Proof.
  intros [_ Hi] Hn Hd. unfold processUserData.
  apply bind_Undefined. rewrite to_size_t_small by lia.
  unfold memcpy, lift. rewrite decide_True by done.
  rewrite store_overflow; rewrite length_take_Z by lia;
    unfold uninit; rewrite length_replicate; [done | lia].
Qed.

(** * [connectToService] *)

(** C5: with [config == nullptr] the message "Config is null" is printed,
    the function goes on, and [config->port] is evaluated through the null
    pointer.  The member access is not guarded: with any other [config] the
    same statement reads the port and prints it. *)
Theorem connectToService_null_dereference (ServiceConfig : Type)
    (port : ServiceConfig → Z) (w : world) :
  connectToService ServiceConfig port nullptr w
  = (Undefined NullDeref, emit_event (EvPrintf ("Config is null" +:+ nl)) w)
  ∧ ∀ c : ServiceConfig,
      connectToService ServiceConfig port (pointer c) w
      = (Done tt, emit_event (EvPrintf ("Port: " +:+ (pretty (port c) +:+ nl))) w).
Proof. split; [reflexivity|]. intros c. reflexivity. Qed.

(** * [buildQuery] *)

(** C4: the result is the fixed text followed by the input; every character
    of the input sits, unchanged, 31 places further in the query. *)
Theorem buildQuery_verbatim (userInput : string) :
  buildQuery userInput = "SELECT * FROM users WHERE id = " +:+ userInput
  ∧ String.length (buildQuery userInput) = 31 + String.length userInput
  ∧ ∀ i : nat, String.get (31 + i) (buildQuery userInput) = String.get i userInput.
Proof.
  split; [reflexivity|]. split.
  - unfold buildQuery. by rewrite length_append.
  - intros i. reflexivity.
Qed.

(** * The [UserService] object over a sequence of calls *)

Create HintDb preserves.

Lemma preserves_bind {A B} (m : M A) (k : A → M B) :
  preserves_this m → (∀ a, preserves_this (k a)) → preserves_this (m ≫= k).
Proof.
  intros Hm Hk w. unfold mbind, M_bind, bind.
  specialize (Hm w). destruct (m w) as [[a|u] w']; simpl in *; [|done].
  by rewrite Hk.
Qed.

Lemma preserves_mret {A} (a : A) : preserves_this (mret a).
Proof. done. Qed.

Lemma preserves_undefined {A} (u : ub) : preserves_this (@undefined A u).
Proof. done. Qed.

Lemma preserves_lift {A} (o : outcome A) : preserves_this (lift o).
Proof. done. Qed.

Lemma preserves_get_this : preserves_this get_this.
Proof. done. Qed.

Lemma preserves_strcpy (dst : array) (src : ptr array) :
  preserves_this (strcpy dst src).
Proof. intros w. unfold strcpy. by repeat case_match. Qed.

Lemma preserves_printf (fs : list fmt_item) : preserves_this (printf fs).
Proof. intros w. unfold printf. by case_match. Qed.

Lemma preserves_sprintf (dst : array) (fs : list fmt_item) :
  preserves_this (sprintf dst fs).
Proof. intros w. unfold sprintf. by case_match. Qed.

Lemma preserves_system (command : array) : preserves_this (system command).
Proof. intros w. unfold system. by case_match. Qed.

Lemma preserves_strcmp (a b : ptr array) : preserves_this (strcmp a b).
Proof. intros w. unfold strcmp. by repeat case_match. Qed.

Lemma preserves_new_char_array (n : nat) : preserves_this (new_char_array n).
Proof. done. Qed.

Lemma preserves_sprintf_heap (p : ptr nat) (fs : list fmt_item) :
  preserves_this (sprintf_heap p fs).
Proof. intros w. unfold sprintf_heap. by repeat case_match. Qed.

Lemma preserves_delete_array (p : ptr nat) : preserves_this (delete_array p).
Proof. intros w. unfold delete_array. by repeat case_match. Qed.

Lemma preserves_std_string (p : ptr array) : preserves_this (std_string p).
Proof. intros w. unfold std_string. by repeat case_match. Qed.

#[local] Hint Resolve preserves_mret preserves_undefined preserves_lift
  preserves_get_this preserves_strcpy preserves_printf preserves_sprintf
  preserves_system preserves_strcmp preserves_new_char_array
  preserves_sprintf_heap preserves_delete_array preserves_std_string
  : preserves.

Ltac solve_preserves :=
  repeat first
    [ apply preserves_bind; [|intros ?]
    | case_decide
    | case_match
    | solve [auto with preserves] ].

Lemma preserves_authenticateUser (username password : ptr array) :
  preserves_this (authenticateUser username password).
Proof. unfold authenticateUser. solve_preserves. Qed.

Lemma preserves_getUserToken (userId : Z) : preserves_this (getUserToken userId).
Proof. unfold getUserToken. solve_preserves. Qed.

Lemma preserves_getSecretKey : preserves_this getSecretKey.
Proof. unfold getSecretKey. solve_preserves. Qed.

Lemma preserves_call (m : method) : preserves_this (call m).
Proof.
  destruct m; simpl;
    auto using preserves_authenticateUser, preserves_bind, preserves_getUserToken,
      preserves_getSecretKey, preserves_mret.
Qed.

Lemma preserves_calls (ms : list method) : preserves_this (calls ms).
Proof.
  induction ms as [|m ms IH]; simpl.
  - apply preserves_mret.
  - apply preserves_bind; [apply preserves_call | by intros _].
Qed.

(** C10: on a default-constructed object [adminPassword] points to
    "SuperSecret123!"; no member function assigns it, so after any sequence
    of calls of the member functions it still does, the [nullptr] branch of
    [getSecretKey] is not taken, and [getSecretKey] returns
    "SuperSecret123!". *)
Theorem getSecretKey_default_object (ms : list method) (w : world) :
  this w = UserService_default →
  let w' := (calls ms w).2 in
  adminPassword (this w') = pointer (c_str "SuperSecret123!")
  ∧ adminPassword (this w') ≠ nullptr
  ∧ getSecretKey w' = (Done "SuperSecret123!", w').
Proof.
  intros Hw w'.
  assert (this w' = UserService_default) as Hw'.
  { unfold w'. by rewrite preserves_calls. }
  split; [by rewrite Hw'|]. split; [by rewrite Hw'|].
  apply (proj1 (proj2 (getSecretKey_lookup w')) (c_str "SuperSecret123!"));
    [by rewrite Hw' | reflexivity].
Qed.

Lemma getSecretKey_default_object_witness :
  let w' := (calls [GetUserToken 7;
                    AuthenticateUser (pointer (c_str "bob")) (pointer (c_str "admin123"));
                    GetSecretKey] world0).2 in
  adminPassword (this w') = pointer (c_str "SuperSecret123!")
  ∧ adminPassword (this w') ≠ nullptr
  ∧ getSecretKey w' = (Done "SuperSecret123!", w').
Proof.
  apply (getSecretKey_default_object
           [GetUserToken 7;
            AuthenticateUser (pointer (c_str "bob")) (pointer (c_str "admin123"));
            GetSecretKey] world0).
  reflexivity.
Defined.

(** * Further properties of [UserService::authenticateUser] *)

Lemma extend_trace_nil (w : world) : extend_trace [] w = w.
Proof. destruct w. unfold extend_trace. simpl. by rewrite app_nil_r. Qed.

(** The three ways the password check can end. *)
Lemma admin_check_cases (password : ptr array) (w : world) :
  admin_check password w = (Undefined InvalidRead, w)
  ∨ admin_check password w = (Done tt, w)
  ∨ admin_check password w
    = (Done tt, emit_event (EvPrintf ("Admin access granted" +:+ nl)) w).
Proof.
  unfold admin_check, mbind, M_bind, bind, strcmp.
  destruct password as [|a]; [by left|].
  destruct (strcmp_cells a _) as [r|]; [|by left].
  simpl. case_decide; [by right; right | by right; left].
Qed.

(** Every run of [authenticateUser], by what the username is. *)
Lemma authenticateUser_cases (username password : ptr array) (w : world) :
  ((username = nullptr ∨ ∃ a, username = pointer a ∧ read_cstr a = None)
   ∧ authenticateUser username password w = (Undefined InvalidRead, w))
  ∨ (∃ a u, username = pointer a ∧ read_cstr a = Some u
       ∧ 32 ≤ String.length u
       ∧ authenticateUser username password w
         = (Undefined (BufferOverflow 32 (S (String.length u))), w))
  ∨ (∃ a u, username = pointer a ∧ read_cstr a = Some u
       ∧ String.length u < 32
       ∧ authenticateUser username password w
         = admin_check password (emit_event (EvSystem ("auth_check " +:+ u)) w)).
Proof.
  destruct username as [|a].
  - left. split; [by left | done].
  - destruct (read_cstr a) as [u|] eqn:Hu.
    + destruct (decide (String.length u < 32)) as [Hlen|Hlen].
      * right; right. exists a, u. repeat split; try done.
        by apply authenticateUser_short.
      * right; left. exists a, u. repeat split; [done | lia |].
        unfold authenticateUser. apply bind_Undefined.
        unfold strcpy, lift. rewrite Hu, store_overflow;
          rewrite length_c_str; unfold uninit; rewrite length_replicate;
          [done | lia].
    + left. split; [right; by exists a |].
      unfold authenticateUser. apply bind_Undefined. unfold strcpy. by rewrite Hu.
Qed.

(** The state a run of [authenticateUser] ends in. *)
Lemma authenticateUser_world (username password : ptr array) (w : world) :
  ∃ es, (authenticateUser username password w).2 = extend_trace es w
    ∧ (es = []
       ∨ ∃ u, es = [EvSystem ("auth_check " +:+ u)]
            ∨ es = [EvSystem ("auth_check " +:+ u);
                    EvPrintf ("Admin access granted" +:+ nl)]).
Proof.
  destruct (authenticateUser_cases username password w)
    as [[_ ->]|[(a & u & _ & _ & _ & ->)|(a & u & _ & _ & _ & ->)]].
  - exists []. by rewrite extend_trace_nil; split; [|left].
  - exists []. by rewrite extend_trace_nil; split; [|left].
  - destruct (admin_check_cases password
                (emit_event (EvSystem ("auth_check " +:+ u)) w))
      as [->|[->| ->]].
    + eexists [_]. split; [reflexivity|]. right. exists u. by left.
    + eexists [_]. split; [reflexivity|]. right. exists u. by left.
    + eexists [_; _]. split; [|right; exists u; by right].
      simpl. unfold extend_trace, emit_event. simpl. by rewrite <- app_assoc.
Qed.

(** X1: with a terminated password, [authenticateUser] runs to its end
    without undefined behaviour exactly when [username] is not null and
    points to a terminated string of at most 31 characters. *)
Theorem authenticateUser_completes_iff (username : ptr array) (password : array)
    (p : string) (w : world) :
  read_cstr password = Some p →
  (authenticateUser username (pointer password) w).1 = Done tt
  ↔ ∃ a u, username = pointer a ∧ read_cstr a = Some u ∧ String.length u < 32.
Proof.
  intros Hp. split.
  - intros Hdone.
    destruct (authenticateUser_cases username (pointer password) w)
      as [[_ Hrun]|[(a & u & _ & _ & _ & Hrun)|(a & u & -> & Hu & Hlen & _)]].
    + by rewrite Hrun in Hdone.
    + by rewrite Hrun in Hdone.
    + by exists a, u.
  - intros (a & u & -> & Hu & Hlen).
    by rewrite (authenticateUser_short _ _ _ _ Hu Hlen), (admin_check_valid _ _ _ Hp).
Qed.

Lemma authenticateUser_completes_iff_witness :
  (authenticateUser (pointer (c_str "bob")) (pointer (c_str "guess")) world0).1
  = Done tt
  ↔ ∃ a u, pointer (c_str "bob") = pointer a ∧ read_cstr a = Some u
           ∧ String.length u < 32.
Proof.
  apply (authenticateUser_completes_iff (pointer (c_str "bob")) (c_str "guess")
           "guess" world0).
  reflexivity.
Defined.

(** * Further properties of [UserService::getUserToken] *)

Lemma fresh_block_unused (w : world) : heap w !! fresh (dom (heap w)) = None.
Proof. apply not_elem_of_dom, is_fresh. Qed.

Lemma same_live_refl (h : gmap nat hblock) : same_live h h.
Proof. by intros b cells. Qed.

Lemma same_live_trans (h1 h2 h3 : gmap nat hblock) :
  same_live h1 h2 → same_live h2 h3 → same_live h1 h3.
Proof.
  intros H12 H23 b cells. etransitivity; [apply H23 | apply H12].
Qed.

Lemma same_live_freed (h : gmap nat hblock) (b : nat) :
  h !! b = None → same_live h (<[b := Freed]> h).
Proof.
  intros Hb b' cells. destruct (decide (b = b')) as [<-|Hne].
  - rewrite lookup_insert_eq, Hb. split; discriminate.
  - by rewrite lookup_insert_ne.
Qed.

(** X5: a call of [getUserToken] leaves every block that existed before it
    exactly as it was, live or freed, with the same bytes. *)
Theorem getUserToken_other_blocks (userId : Z) (w : world) (b : nat) :
  int_range userId → is_Some (heap w !! b) →
  heap (getUserToken userId w).2 !! b = heap w !! b.
Proof.
  intros Hi Hb. rewrite (getUserToken_run _ _ Hi). simpl.
  apply lookup_insert_ne. intros Heq. rewrite <- Heq, fresh_block_unused in Hb.
  by destruct Hb.
Qed.

Lemma getUserToken_other_blocks_witness :
  heap (getUserToken 7 (set_heap {[ 0 := Live (c_str "x") ]} world0)).2 !! 0
  = heap (set_heap {[ 0 := Live (c_str "x") ]} world0) !! 0.
Proof.
  apply (getUserToken_other_blocks 7
           (set_heap {[ 0 := Live (c_str "x") ]} world0) 0).
  - unfold int_range. lia.
  - exists (Live (c_str "x")). reflexivity.
Defined.

(** X6: the pointer [getUserToken] returns cannot be used.  Handing it to
    [delete[]] frees the block a second time, and storing a string through
    it writes into freed storage; both are undefined, at that very step. *)
Theorem getUserToken_result_unusable (userId : Z) (w : world) :
  int_range userId →
  (getUserToken userId ≫= delete_array) w
  = (Undefined InvalidDelete, (getUserToken userId w).2)
  ∧ ∀ (fs : list fmt_item) (s : string), render fs = Some s →
      (getUserToken userId ≫= λ token, sprintf_heap token fs) w
      = (Undefined DanglingWrite, (getUserToken userId w).2).
Proof.
  intros Hi. rewrite (getUserToken_run _ _ Hi). split.
  - erewrite bind_Done; [|by apply getUserToken_run].
    unfold delete_array. simpl. by rewrite lookup_insert_eq.
  - intros fs s Hs. erewrite bind_Done; [|by apply getUserToken_run].
    unfold sprintf_heap. rewrite Hs. simpl. by rewrite lookup_insert_eq.
Qed.

Lemma getUserToken_result_unusable_witness :
  (getUserToken 7 ≫= delete_array) world0
  = (Undefined InvalidDelete, (getUserToken 7 world0).2)
  ∧ ∀ (fs : list fmt_item) (s : string), render fs = Some s →
      (getUserToken 7 ≫= λ token, sprintf_heap token fs) world0
      = (Undefined DanglingWrite, (getUserToken 7 world0).2).
Proof.
  apply (getUserToken_result_unusable 7 world0).
  unfold int_range. lia.
Defined.

(** X7: the text stored for a user id determines the id: two calls that
    produce the same events from the same state were given the same
    [userId]. *)
Theorem getUserToken_text_injective (i j : Z) (w : world) :
  int_range i → int_range j →
  events (getUserToken i) w = events (getUserToken j) w → i = j.
Proof.
  intros Hi Hj.
  erewrite (events_extend (getUserToken i)); [|by apply getUserToken_run|reflexivity].
  erewrite (events_extend (getUserToken j)); [|by apply getUserToken_run|reflexivity].
  unfold token_text. intros [= Heq _]. by apply (inj pretty).
Qed.

Lemma getUserToken_text_injective_witness : 42%Z = 42%Z.
Proof.
  apply (getUserToken_text_injective 42 42 world0).
  - unfold int_range. lia.
  - unfold int_range. lia.
  - reflexivity.
Defined.

(** * Further properties of [processUserData] *)

(** A copy that does not fit the source or the destination is undefined. *)
Lemma memcpy_out_of_bounds (dst a : array) (m : Z) (w : world) :
  (0 ≤ m)%Z →
  ¬ ((m ≤ Z.of_nat (length dst))%Z ∧ (m ≤ Z.of_nat (length a))%Z) →
  ∃ u, memcpy dst (pointer a) m w = (Undefined u, w)
       ∧ (u = InvalidRead ∨ ∃ k, u = BufferOverflow (length dst) k).
Proof.
  intros Hm Hout. unfold memcpy. case_decide as Ha; [|eexists; split; eauto].
  unfold lift. rewrite store_overflow; [eexists; split; eauto|].
  rewrite length_take. lia.
Qed.

Lemma processUserData_out_of_bounds (a : array) (n : Z) (w : world) :
  int_range n →
  ¬ ((0 ≤ n ≤ 100)%Z ∧ (n ≤ Z.of_nat (length a))%Z) →
  ∃ u, processUserData (pointer a) n w = (Undefined u, w)
       ∧ (u = InvalidRead ∨ ∃ k, u = BufferOverflow 100 k).
Proof.
  unfold int_range. intros Hi Hout.
  destruct (memcpy_out_of_bounds (uninit 100) a (to_size_t n) w) as [u [Hu Hk]].
  - unfold to_size_t. apply Z.mod_pos_bound. lia.
  - unfold uninit. rewrite length_replicate.
    destruct (decide (n < 0)%Z).
    + rewrite to_size_t_negative by lia. lia.
    + rewrite to_size_t_small by lia. lia.
  - exists u. split.
    + unfold processUserData. by apply bind_Undefined.
    + unfold uninit in Hk. by rewrite length_replicate in Hk.
Qed.

(** X8: no call of [processUserData] is free of undefined behaviour.  For
    an [int] length the first undefined operation is the read of the
    never-assigned [status] exactly when [data] is not null, [length] lies
    between 0 and 100, and [data] holds at least [length] bytes; on every
    other call [memcpy] is undefined before that. *)
Theorem processUserData_first_undefined (data : ptr array) (n : Z) (w : world) :
  int_range n →
  (processUserData data n w).1 ≠ Done tt
  ∧ ((processUserData data n w).1 = Undefined (UninitializedRead "status")
     ↔ ∃ a, data = pointer a ∧ (0 ≤ n ≤ 100)%Z ∧ (n ≤ Z.of_nat (length a))%Z).
Proof.
  intros Hi. destruct data as [|a].
  - split; [done|]. split; [done | by intros (a & ? & _)].
  - destruct (decide ((0 ≤ n ≤ 100)%Z ∧ (n ≤ Z.of_nat (length a))%Z))
      as [[Hn Ha]|Hout].
    + rewrite processUserData_fits by done. split; [done|].
      split; [by exists a | done].
    + destruct (processUserData_out_of_bounds a n w Hi Hout) as [u [-> Hu]].
      simpl. split; [done|]. split.
      * intros [= ->]. by destruct Hu as [?|[? ?]].
      * intros (a' & [= <-] & Hn & Ha). tauto.
Qed.

Lemma processUserData_first_undefined_witness :
  (processUserData (pointer (c_str "hello")) 6 world0).1 ≠ Done tt
  ∧ ((processUserData (pointer (c_str "hello")) 6 world0).1
       = Undefined (UninitializedRead "status")
     ↔ ∃ a, pointer (c_str "hello") = pointer a ∧ (0 ≤ 6 ≤ 100)%Z
            ∧ (6 ≤ Z.of_nat (length a))%Z).
Proof.
  apply (processUserData_first_undefined (pointer (c_str "hello")) 6 world0).
  unfold int_range. lia.
Defined.

(** X9: a negative [length] is converted to [size_t] on the way into
    [memcpy] and arrives there as [length + 2^64], at least [2^64 - 2^31]
    bytes, far more than the 100 bytes of [output]; the call is undefined
    in [memcpy]. *)
Theorem processUserData_negative_length_undefined (data : array) (n : Z)
    (w : world) :
  int_range n → (n < 0)%Z →
  to_size_t n = (n + 2 ^ 64)%Z
  ∧ (2 ^ 64 - 2 ^ 31 ≤ to_size_t n)%Z
  ∧ ((processUserData (pointer data) n w).1 = Undefined InvalidRead
     ∨ ∃ k, (processUserData (pointer data) n w).1
            = Undefined (BufferOverflow 100 k)).
Proof.
  intros Hi Hn. pose proof Hi as [Hlo _].
  rewrite to_size_t_negative by lia. repeat split; [lia|].
  destruct (processUserData_out_of_bounds data n w Hi) as [u [-> Hu]]; [lia|].
  simpl. destruct Hu as [->|[k ->]]; [by left | right; by exists k].
Qed.

Lemma processUserData_negative_length_undefined_witness :
  to_size_t (-1) = (-1 + 2 ^ 64)%Z
  ∧ (2 ^ 64 - 2 ^ 31 ≤ to_size_t (-1))%Z
  ∧ ((processUserData (pointer (c_str "hello")) (-1) world0).1 = Undefined InvalidRead
     ∨ ∃ k, (processUserData (pointer (c_str "hello")) (-1) world0).1
            = Undefined (BufferOverflow 100 k)).
Proof.
  apply (processUserData_negative_length_undefined (c_str "hello") (-1) world0).
  - unfold int_range. lia.
  - lia.
Defined.

(** * Further properties of the member functions in sequence *)

Lemma getSecretKey_world (w : world) : (getSecretKey w).2 = w.
Proof.
  unfold getSecretKey, mbind, M_bind, bind, get_this, std_string. simpl.
  destruct (adminPassword (this w)) as [|a]; simpl; [done|].
  by destruct (read_cstr a).
Qed.

Lemma getSecretKey_result (w1 w2 : world) :
  this w1 = this w2 → (getSecretKey w1).1 = (getSecretKey w2).1.
Proof.
  intros Hthis.
  unfold getSecretKey, mbind, M_bind, bind, get_this, std_string. simpl.
  rewrite Hthis. destruct (adminPassword (this w2)) as [|a]; simpl; [done|].
  by destruct (read_cstr a).
Qed.

(** X10: whatever object the calls are made on, no sequence of member
    calls changes a member of the object, and [getSecretKey] gives after
    the calls what it gave before them. *)
Theorem calls_keep_secret (ms : list method) (w : world) :
  this (calls ms w).2 = this w
  ∧ (getSecretKey (calls ms w).2).1 = (getSecretKey w).1.
Proof.
  pose proof (preserves_calls ms w) as Hthis.
  split; [done | by apply getSecretKey_result].
Qed.

Lemma keeps_live_bind {A B} (m : M A) (k : A → M B) :
  keeps_live m → (∀ a, keeps_live (k a)) → keeps_live (m ≫= k).
Proof.
  intros Hm Hk w. unfold mbind, M_bind, bind.
  specialize (Hm w). destruct (m w) as [[a|u] w']; simpl in *; [|done].
  eapply same_live_trans; [exact Hm | apply Hk].
Qed.

Lemma keeps_live_mret {A} (a : A) : keeps_live (mret a).
Proof. intros w. apply same_live_refl. Qed.

Lemma keeps_live_call (m : method) : int_args m → keeps_live (call m).
Proof.
  destruct m as [u p|i|]; simpl; intros Hm.
  - intros w. destruct (authenticateUser_world u p w) as [es [-> _]].
    apply same_live_refl.
  - apply keeps_live_bind; [|intros; apply keeps_live_mret].
    intros w. rewrite (getUserToken_run _ _ Hm). simpl.
    apply same_live_freed, fresh_block_unused.
  - apply keeps_live_bind; [|intros; apply keeps_live_mret].
    intros w. rewrite getSecretKey_world. apply same_live_refl.
Qed.

(** X11: the member functions leak nothing and disturb no live block:
    after any sequence of calls with [int] arguments the live blocks of the
    heap, and their bytes, are those it had before. *)
Theorem calls_no_leak (ms : list method) (w : world) :
  Forall int_args ms → same_live (heap w) (heap (calls ms w).2).
Proof.
  intros Hms. revert w. induction Hms as [|m ms Hm _ IH]; intros w.
  - apply same_live_refl.
  - simpl. apply keeps_live_bind; [by apply keeps_live_call | by intros _].
Qed.

Lemma calls_no_leak_witness :
  same_live (heap world0)
    (heap (calls [GetUserToken 7; GetUserToken 8;
                  AuthenticateUser (pointer (c_str "bob")) nullptr] world0).2).
Proof.
  apply (calls_no_leak
           [GetUserToken 7; GetUserToken 8;
            AuthenticateUser (pointer (c_str "bob")) nullptr] world0).
  repeat constructor; unfold int_range; lia.
Defined.

(** * Further properties of [buildQuery] *)

(** X12: different inputs give different queries: the SQL text determines
    the input it was built from. *)
Theorem buildQuery_injective (s t : string) :
  buildQuery s = buildQuery t → s = t.
Proof. unfold buildQuery. apply (inj (String.app _)). Qed.

Lemma buildQuery_injective_witness : "42" = "42".
Proof. apply (buildQuery_injective "42" "42"). reflexivity. Defined.

(** * The run-on reading: facts about runs *)

Lemma run_on_bind_Done {A B} (m : RunOn.R A) (k : A → RunOn.R B)
    (s s' : RunOn.state) (a : A) :
  m s = (Done a, s') → (m ≫= k) s = k a s'.
Proof. intros H. unfold mbind, RunOn.R_bind, RunOn.bind. by rewrite H. Qed.

Lemma run_on_bind_Undefined {A B} (m : RunOn.R A) (k : A → RunOn.R B)
    (s s' : RunOn.state) (u : ub) :
  m s = (Undefined u, s') → (m ≫= k) s = (Undefined u, s').
Proof. intros H. unfold mbind, RunOn.R_bind, RunOn.bind. by rewrite H. Qed.

Lemma run_on_events_extend {A} (m : RunOn.R A) (w : world) (es : list event) :
  trace (RunOn.outside (RunOn.run m w).2) = trace w ++ es →
  RunOn.events m w = es.
Proof. intros Ht. unfold RunOn.events. by rewrite Ht, drop_app_length. Qed.

(** A store into a declared array. *)
Lemma store_local_declared (name : string) (cells : array) (a : RunOn.local_array)
    (s : RunOn.state) :
  RunOn.frame s !! name = Some a →
  RunOn.store_local name cells s
  = (Done tt,
     RunOn.mkState (RunOn.outside s)
       (<[name := RunOn.mkLocal (RunOn.declared a)
                    (cells ++ drop (length cells) (RunOn.memory a))]>
          (RunOn.frame s))).
Proof. intros Ha. unfold RunOn.store_local. by rewrite Ha. Qed.

Lemma overrun_lookup (s : RunOn.state) (name : string) (a : RunOn.local_array) :
  RunOn.frame s !! name = Some a →
  RunOn.overrun s name ↔ RunOn.declared a < length (RunOn.memory a).
Proof.
  intros Ha. unfold RunOn.overrun. rewrite Ha. split.
  - by intros (a' & [= <-] & Hlen).
  - intros Hlen. by exists a.
Qed.

Lemma drop_c_str_uninit (s : string) (n : nat) :
  drop (length (c_str s)) (uninit n) = uninit (n - S (String.length s)).
Proof. unfold uninit. by rewrite length_c_str, drop_replicate. Qed.

(** The password check of the run-on reading is the one of the strict
    reading, and it leaves the frame alone. *)
Lemma run_on_admin_check (password : ptr array) (s : RunOn.state) :
  (RunOn.out (strcmp password (pointer (c_str "admin123")))
     ≫= λ r, if decide (r = 0%Z)
              then RunOn.out (printf [Lit ("Admin access granted" +:+ nl)])
              else mret tt) s
  = RunOn.out (admin_check password) s.
Proof.
  unfold mbind at 1. unfold RunOn.R_bind, RunOn.bind, RunOn.out, admin_check.
  unfold mbind, M_bind, bind.
  destruct (strcmp password (pointer (c_str "admin123")) (RunOn.outside s))
    as [[r|u] w'] eqn:Hcmp; simpl; [|done].
  by case_decide.
Qed.

(** * The run-on reading of [UserService::authenticateUser] *)

(** Both copies are made, whatever the length of the username, and the
    command is read back from where [sprintf] put it. *)
Lemma run_on_authenticateUser (username : array) (u : string)
    (password : ptr array) (w : world) :
  read_cstr username = Some u →
  RunOn.run (RunOn.authenticateUser (pointer username) password) w
  = RunOn.out (admin_check password)
      (RunOn.mkState (emit_event (EvSystem ("auth_check " +:+ u)) w) (auth_frame u)).
Proof.
  intros Hu. destruct (read_cstr_inv _ _ Hu) as [Hnn _].
  unfold RunOn.run, RunOn.authenticateUser.
  erewrite run_on_bind_Done; [|reflexivity].
  erewrite run_on_bind_Done; cycle 1.
  { unfold RunOn.strcpy. rewrite Hu.
    apply store_local_declared. apply lookup_insert_eq. }
  erewrite run_on_bind_Done; [|reflexivity].
  erewrite run_on_bind_Done; cycle 1.
  { unfold RunOn.sprintf. cbn [render render_item]. rewrite Hu, append_empty_r.
    apply store_local_declared. apply lookup_insert_eq. }
  cbn [RunOn.outside RunOn.frame RunOn.declared RunOn.memory].
  rewrite !insert_insert_eq, !drop_c_str_uninit.
  erewrite run_on_bind_Done; cycle 1.
  { unfold RunOn.system. cbn [RunOn.frame]. rewrite lookup_insert_eq.
    cbn [RunOn.memory]. rewrite read_cstr_c_str; [reflexivity|].
    apply NoNul_append; [solve_NoNul | done]. }
  rewrite run_on_admin_check. unfold auth_frame.
  rewrite length_append. reflexivity.
Qed.

(** C2: for every terminated username, of whatever length,
    [authenticateUser] hands [system] exactly one command, the text
    "auth_check " followed by the username unchanged: the command is
    formatted from [username] itself and read back from [command], also
    when the copies overrun [buffer] or [command]. *)
Theorem authenticateUser_system_command (username : array) (u : string)
    (password : ptr array) (w : world) :
  read_cstr username = Some u →
  system_calls
    (RunOn.events (RunOn.authenticateUser (pointer username) password) w)
  = ["auth_check " +:+ u].
Proof.
  intros Hu.
  destruct (admin_check_trace password
              (emit_event (EvSystem ("auth_check " +:+ u)) w)) as [es [Ht Hes]].
  rewrite (run_on_events_extend _ _ (EvSystem ("auth_check " +:+ u) :: es)).
  - by rewrite system_calls_cons, Hes.
  - rewrite (run_on_authenticateUser _ _ _ _ Hu). unfold RunOn.out.
    cbn [snd RunOn.outside]. rewrite Ht. cbn [trace emit_event].
    by rewrite <- app_assoc.
Qed.

Lemma authenticateUser_system_command_witness :
  system_calls
    (RunOn.events
       (RunOn.authenticateUser
          (pointer (c_str "bob; rm -rf / # 0123456789abcdef0123456789abcdef"))
          nullptr) world0)
  = ["auth_check bob; rm -rf / # 0123456789abcdef0123456789abcdef"].
Proof.
  apply (authenticateUser_system_command
           (c_str "bob; rm -rf / # 0123456789abcdef0123456789abcdef")
           "bob; rm -rf / # 0123456789abcdef0123456789abcdef" nullptr world0).
  reflexivity.
Defined.

(** The events of a call with a terminated username and password. *)
Lemma run_on_authenticateUser_events (username password : array) (u p : string)
    (w : world) :
  read_cstr username = Some u → read_cstr password = Some p →
  RunOn.events (RunOn.authenticateUser (pointer username) (pointer password)) w
  = EvSystem ("auth_check " +:+ u)
      :: (if decide (p = "admin123")
          then [EvPrintf ("Admin access granted" +:+ nl)] else []).
Proof.
  intros Hu Hp. apply run_on_events_extend.
  rewrite (run_on_authenticateUser _ _ _ _ Hu). unfold RunOn.out.
  cbn [snd RunOn.outside]. rewrite (admin_check_valid _ _ _ Hp). cbn [snd].
  case_decide; cbn [trace emit_event]; by rewrite <- ?app_assoc.
Qed.

(** C9: for every terminated username and password, "Admin access granted"
    is printed if and only if the password is the string "admin123"; the
    username, short or long, plays no part in it. *)
Theorem admin_access_iff_password (username password : array) (u p : string)
    (w : world) :
  read_cstr username = Some u → read_cstr password = Some p →
  admin_access_granted (pointer username) (pointer password) w ↔ p = "admin123".
Proof.
  intros Hu Hp. unfold admin_access_granted.
  rewrite (run_on_authenticateUser_events _ _ _ _ _ Hu Hp).
  case_decide as Hq.
  - split; [done|]. intros _. apply list_elem_of_In. right; left; reflexivity.
  - split; [|done]. intros Hin. apply list_elem_of_In in Hin.
    by destruct Hin as [?|[]].
Qed.

Lemma admin_access_iff_password_witness :
  admin_access_granted
    (pointer (c_str "0123456789abcdef0123456789abcdef"))
    (pointer (c_str "admin123")) world0
  ↔ "admin123" = "admin123".
Proof.
  apply (admin_access_iff_password
           (c_str "0123456789abcdef0123456789abcdef") (c_str "admin123")
           "0123456789abcdef0123456789abcdef" "admin123" world0).
  - reflexivity.
  - reflexivity.
Defined.

(** X3: with a terminated username and password the events of a call are
    exactly the one [system] call with the command "auth_check <username>",
    followed by the one line "Admin access granted" when the password is
    "admin123" and by nothing otherwise: the shell command runs before the
    password is looked at, whatever the password is. *)
Theorem authenticateUser_event_order (username password : array) (u p : string)
    (w : world) :
  read_cstr username = Some u → read_cstr password = Some p →
  RunOn.events (RunOn.authenticateUser (pointer username) (pointer password)) w
  = EvSystem ("auth_check " +:+ u)
      :: (if decide (p = "admin123")
          then [EvPrintf ("Admin access granted" +:+ nl)] else []).
Proof. exact (run_on_authenticateUser_events username password u p w). Qed.

Lemma authenticateUser_event_order_witness :
  RunOn.events
    (RunOn.authenticateUser (pointer (c_str "bob")) (pointer (c_str "guess")))
    world0
  = EvSystem ("auth_check " +:+ "bob")
      :: (if decide ("guess" = "admin123")
          then [EvPrintf ("Admin access granted" +:+ nl)] else []).
Proof.
  apply (authenticateUser_event_order (c_str "bob") (c_str "guess")
           "bob" "guess" world0); reflexivity.
Defined.




(** On a username of at most 31 characters nothing is overrun and the two
    readings agree on the outcome and on the outside world. *)
Lemma run_on_authenticateUser_agrees (username : array) (u : string)
    (password : ptr array) (w : world) :
  read_cstr username = Some u → String.length u < 32 →
  RunOn.run (RunOn.authenticateUser (pointer username) password) w
  = ((authenticateUser (pointer username) password w).1,
     RunOn.mkState (authenticateUser (pointer username) password w).2
       (auth_frame u)).
Proof.
  intros Hu Hlen.
  by rewrite (run_on_authenticateUser _ _ _ _ Hu),
    (authenticateUser_short _ _ _ _ Hu Hlen).
Qed.

(** * The run-on reading of [processUserData] *)

(** The copy is made, whatever [length] is, and the run ends at the read
    of [status]. *)
Lemma run_on_processUserData (data : array) (n : Z) (w : world) :
  int_range n → (0 ≤ n)%Z → (n ≤ Z.of_nat (length data))%Z →
  RunOn.run (RunOn.processUserData (pointer data) n) w
  = (Undefined (UninitializedRead "status"), RunOn.mkState w (data_frame data n)).
Proof.
  intros [_ Hi] Hn Hd. unfold RunOn.run, RunOn.processUserData.
  erewrite run_on_bind_Done; [|reflexivity].
  erewrite run_on_bind_Done; cycle 1.
  { rewrite to_size_t_small by lia. unfold RunOn.memcpy.
    rewrite decide_True by done.
    apply store_local_declared. apply lookup_insert_eq. }
  cbn [RunOn.outside RunOn.frame RunOn.declared RunOn.memory].
  rewrite insert_insert_eq, length_take_Z by lia.
  unfold uninit. rewrite drop_replicate.
  by apply run_on_bind_Undefined.
Qed.

(** On a call whose copy fits, the two readings agree on the outcome and on
    the outside world. *)
Lemma run_on_processUserData_agrees (data : array) (n : Z) (w : world) :
  int_range n → (0 ≤ n ≤ 100)%Z → (n ≤ Z.of_nat (length data))%Z →
  RunOn.run (RunOn.processUserData (pointer data) n) w
  = ((processUserData (pointer data) n w).1,
     RunOn.mkState (processUserData (pointer data) n w).2 (data_frame data n)).
Proof.
  intros Hi Hn Hd.
  by rewrite run_on_processUserData, processUserData_fits by (done || lia).
Qed.



(** C8: [memcpy(output, data, length)] puts exactly the first [length]
    bytes of [data] at the start of the 100-byte [output], and nothing
    compares [length] with 100 first.  When [length] is at most 100 the
    rest of [output] stays as it was declared; when [length] is above 100
    the copy goes on behind the end of [output], which in the strict
    reading is where the call becomes undefined. *)
Theorem processUserData_memcpy_overflow (data : array) (n : Z) (w : world) :
  int_range n → (0 ≤ n)%Z → (n ≤ Z.of_nat (length data))%Z →
  let s := (RunOn.run (RunOn.processUserData (pointer data) n) w).2 in
  RunOn.frame s !! "output"
  = Some (RunOn.mkLocal 100 (take (Z.to_nat n) data ++ uninit (100 - Z.to_nat n)))
  ∧ (RunOn.overrun s "output" ↔ (100 < n)%Z)
  ∧ ((100 < n)%Z →
     processUserData (pointer data) n w
     = (Undefined (BufferOverflow 100 (Z.to_nat n)), w)).
Proof.
  intros Hi Hn Hd s.
  assert (RunOn.frame s !! "output"
          = Some (RunOn.mkLocal 100
                    (take (Z.to_nat n) data ++ uninit (100 - Z.to_nat n))))
    as Ho.
  { unfold s. rewrite run_on_processUserData by done. reflexivity. }
  split; [done|]. split.
  - rewrite (overrun_lookup _ _ _ Ho). cbn [RunOn.declared RunOn.memory].
    rewrite length_app, length_take_Z by lia. unfold uninit.
    rewrite length_replicate. lia.
  - intros Hbig. by apply processUserData_overflows.
Qed.

Lemma processUserData_memcpy_overflow_witness :
  (let s := (RunOn.run (RunOn.processUserData (pointer (c_str "hello")) 3)
               world0).2 in
   RunOn.frame s !! "output"
   = Some (RunOn.mkLocal 100
             (take (Z.to_nat 3) (c_str "hello") ++ uninit (100 - Z.to_nat 3)))
   ∧ (RunOn.overrun s "output" ↔ (100 < 3)%Z)
   ∧ ((100 < 3)%Z →
      processUserData (pointer (c_str "hello")) 3 world0
      = (Undefined (BufferOverflow 100 (Z.to_nat 3)), world0)))
  ∧ (let s := (RunOn.run (RunOn.processUserData
                            (pointer (replicate 101 (Some "a"%char))) 101)
                 world0).2 in
     RunOn.frame s !! "output"
     = Some (RunOn.mkLocal 100
               (take (Z.to_nat 101) (replicate 101 (Some "a"%char))
                ++ uninit (100 - Z.to_nat 101)))
     ∧ (RunOn.overrun s "output" ↔ (100 < 101)%Z)
     ∧ ((100 < 101)%Z →
        processUserData (pointer (replicate 101 (Some "a"%char))) 101 world0
        = (Undefined (BufferOverflow 100 (Z.to_nat 101)), world0))).
Proof.
  split.
  - apply (processUserData_memcpy_overflow (c_str "hello") 3 world0).
    + unfold int_range. lia.
    + lia.
    + simpl. lia.
  - apply (processUserData_memcpy_overflow
             (replicate 101 (Some "a"%char)) 101 world0).
    + unfold int_range. lia.
    + lia.
    + rewrite length_replicate. lia.
Defined.
